(** * Verification of [src/binarytree.rs] and [src/stack.rs]

    Shallow embedding of the generic binary search tree [BinaryTree<T>] and of
    the linked stack [Stack<T>].  The element type of the tree is [Z]
    (any [Ord + Copy] type; [cmp] is [Z.compare]).  A method taking
    [&mut self] becomes a function returning the new [self] together with its
    result; a reachable [unwrap] of [None] is a panic, modelled by the
    [None] of the panic monad [M]. *)

From Stdlib Require Import ZArith List Lia Permutation Sorted.
Import ListNotations.
Open Scope Z_scope.

(** ** Panic monad *)

Definition M (A : Type) : Type := option A.

Definition ret {A} (x : A) : M A := Some x.

Definition bind {A B} (m : M A) (k : A -> M B) : M B :=
  match m with
  | Some x => k x
  | None => None
  end.

Notation "x <- m ;; k" := (bind m (fun x => k))
  (at level 61, m at next level, right associativity).

(** [Option::unwrap]: panics on [None]. *)
Definition unwrap {A} (o : option A) : M A :=
  match o with
  | Some x => ret x
  | None => None
  end.

Definition is_none {A} (o : option A) : bool :=
  match o with
  | None => true
  | Some _ => false
  end.

(** ** The tree *)

(** [struct BinaryTree<T> { val, left, right }] *)
Local Unset Elimination Schemes.
Inductive tree : Type :=
| Node (val : option Z) (left : option tree) (right : option tree).
Local Set Elimination Schemes.

(** Induction through the [option] children. *)
Definition on_child (P : tree -> Prop) (o : option tree) : Prop :=
  match o with None => True | Some c => P c end.

Fixpoint tree_ind (P : tree -> Prop)
    (H : forall sv l r, on_child P l -> on_child P r -> P (Node sv l r))
    (t : tree) {struct t} : P t :=
  match t with
  | Node sv l r =>
      H sv l r
        (match l as o return on_child P o with
         | None => I | Some c => tree_ind P H c end)
        (match r as o return on_child P o with
         | None => I | Some c => tree_ind P H c end)
  end.

Definition tval (t : tree) : option Z := match t with Node v _ _ => v end.
Definition tleft (t : tree) : option tree := match t with Node _ l _ => l end.
Definition tright (t : tree) : option tree := match t with Node _ _ r => r end.

(** [Result<T, T>] *)
Inductive result : Type :=
| Ok (x : Z)
| Err (x : Z).

Definition is_ok (r : result) : bool :=
  match r with Ok _ => true | Err _ => false end.

(** [BinaryTree::new] *)
Definition new : tree := Node None None None.

(** [BinaryTree::insert] *)
Fixpoint insert (t : tree) (v : Z) {struct t} : M (tree * result) :=
  match t with
  | Node sv l r =>
      if is_none sv then ret (Node (Some v) l r, Ok v) else
      x <- unwrap sv ;;
      match Z.compare v x with
      | Eq => y <- unwrap sv ;; ret (t, Err y)
      | Lt =>
          match l with
          | None => ret (Node sv (Some (Node (Some v) None None)) r, Ok v)
          | Some c =>
              p <- insert c v ;;
              let '(c', res) := p in
              match res with
              | Err e => ret (Node sv (Some c') r, Err e)
              | Ok _ => ret (Node sv (Some c') r, Ok v)
              end
          end
      | Gt =>
          match r with
          | None => ret (Node sv l (Some (Node (Some v) None None)), Ok v)
          | Some c =>
              p <- insert c v ;;
              let '(c', res) := p in
              match res with
              | Err e => ret (Node sv l (Some c'), Err e)
              | Ok _ => ret (Node sv l (Some c'), Ok v)
              end
          end
      end
  end.

(** [BinaryTree::prune]: deletes any child whose [val] is [None]. *)
Definition prune (t : tree) : tree :=
  match t with
  | Node sv l r =>
      let del_left := match l with None => false | Some c => is_none (tval c) end in
      let del_right := match r with None => false | Some c => is_none (tval c) end in
      Node sv (if del_left then None else l) (if del_right then None else r)
  end.

Arguments prune : simpl never.

(** [BinaryTree::collapse_rightmost] *)
Fixpoint collapse_rightmost (t : tree) : tree * option Z :=
  match t with
  | Node sv l r =>
      match r with
      | None => (prune (Node None l r), sv)
      | Some c =>
          let '(c', w) := collapse_rightmost c in
          (prune (Node sv l (Some c')), w)
      end
  end.

(** [BinaryTree::remove] *)
Fixpoint remove (t : tree) (v : Z) {struct t} : M (tree * result) :=
  match t with
  | Node sv l r =>
      if is_none sv then ret (t, Err v) else
      x <- unwrap sv ;;
      p <- match Z.compare v x with
           | Lt =>
               match l with
               | None => ret (t, Err v)
               | Some c =>
                   q <- remove c v ;;
                   let '(c', res) := q in
                   ret (Node sv (Some c') r, res)
               end
           | Gt =>
               match r with
               | None => ret (t, Err v)
               | Some c =>
                   q <- remove c v ;;
                   let '(c', res) := q in
                   ret (Node sv l (Some c'), res)
               end
           | Eq =>
               y <- unwrap sv ;;
               let '(nv, nl, nr) :=
                 match l, r with
                 | None, None => (None, None, None)
                 | None, Some c => (tval c, tleft c, tright c)
                 | Some c, None => (tval c, tleft c, tright c)
                 | Some lc, Some rc =>
                     let '(lc', w) := collapse_rightmost lc in
                     (w, Some lc', Some rc)
                 end in
               ret (Node nv nl nr, Ok y)
           end ;;
      let '(t1, res) := p in
      ret (prune t1, res)
  end.

(** In-order traversal: the values held by the occupied nodes. *)
Fixpoint elements (t : tree) : list Z :=
  match t with
  | Node sv l r =>
      match l with None => [] | Some c => elements c end ++
      match sv with None => [] | Some x => [x] end ++
      match r with None => [] | Some c => elements c end
  end.

Definition oelements (o : option tree) : list Z :=
  match o with None => [] | Some c => elements c end.

(** Number of occupied nodes. *)
Definition size (t : tree) : nat := length (elements t).

(** A sequence of inserts, starting from [t]. *)
Fixpoint insert_all (t : tree) (xs : list Z) : M (tree * list result) :=
  match xs with
  | [] => ret (t, [])
  | x :: xs' =>
      p <- insert t x ;;
      let '(t1, r) := p in
      q <- insert_all t1 xs' ;;
      let '(t2, rs) := q in
      ret (t2, r :: rs)
  end.

Definition leaf (x : Z) : tree := Node (Some x) None None.

(** ** Invariants *)

(** Every present child holds a value (recursively): [prune] has nothing
    left to delete anywhere. *)
Fixpoint valued_children (t : tree) : Prop :=
  match t with
  | Node _ l r =>
      match l with None => True | Some c => tval c <> None /\ valued_children c end /\
      match r with None => True | Some c => tval c <> None /\ valued_children c end
  end.

(** The data-model invariant: no dangling empty child, and an empty root
    has no children. *)
Definition wf (t : tree) : Prop :=
  valued_children t /\ (tval t = None -> tleft t = None /\ tright t = None).

(** No hollow node: a node with no value has no child. *)
Fixpoint no_hollow (t : tree) : Prop :=
  match t with
  | Node sv l r =>
      (sv = None -> l = None /\ r = None) /\
      match l with None => True | Some c => no_hollow c end /\
      match r with None => True | Some c => no_hollow c end
  end.

(** BST ordering at every occupied node. *)
Fixpoint ordered (t : tree) : Prop :=
  match t with
  | Node sv l r =>
      match sv with
      | None => True
      | Some x => Forall (fun y => y < x) (oelements l) /\
                  Forall (fun y => x < y) (oelements r)
      end /\
      match l with None => True | Some c => ordered c end /\
      match r with None => True | Some c => ordered c end
  end.

(** Trees a client can hold: the fields are private, so every tree comes
    from [new] followed by [insert] and [remove] calls. *)
Inductive reachable : tree -> Prop :=
| reach_new : reachable new
| reach_insert t v t' r : reachable t -> insert t v = Some (t', r) -> reachable t'
| reach_remove t v t' r : reachable t -> remove t v = Some (t', r) -> reachable t'.

(** ** The stack *)

Module Stack.
Section Stack.
Variable A : Type.

(** [struct StackNode<T> { val, next }] *)
Local Unset Elimination Schemes.
Inductive stack_node : Type :=
| StackNode (val : A) (next : option stack_node).
Local Set Elimination Schemes.

(** [struct Stack<T> { top }] *)
Record stack : Type := MkStack { top : option stack_node }.

(** [Stack::new] *)
Definition new : stack := MkStack None.

(** [Stack::push] *)
Definition push (s : stack) (v : A) : stack :=
  let node := StackNode v (top s) in
  MkStack (Some node).

(** [Stack::pop]: [self.top.take()] leaves [top] empty. *)
Definition pop (s : stack) : stack * option A :=
  match top s with
  | None => (MkStack None, None)
  | Some (StackNode v n) => (MkStack n, Some v)
  end.

(** [impl Iterator for Stack]: [next] pops. *)
Definition next (s : stack) : stack * option A := pop s.

(** [n] successive calls of [step] ([pop] or [next]). *)
Fixpoint pops (step : stack -> stack * option A) (n : nat) (s : stack)
    : list (option A) :=
  match n with
  | O => []
  | S n' => let '(s', o) := step s in o :: pops step n' s'
  end.

Definition push_all (s : stack) (xs : list A) : stack := fold_left push xs s.

End Stack.
Arguments new {A}.
Arguments push {A}.
Arguments pop {A}.
Arguments next {A}.
Arguments pops {A}.
Arguments push_all {A}.
End Stack.

(** ** Concrete inputs *)

(** A tree with no hollow node but with a dangling empty child: not
    reachable, it shows that [no_hollow] alone is not preserved. *)
Definition dangling_tree : tree :=
  Node (Some 3) (Some (Node (Some 2) None (Some (Node None None None))))
       (Some (Node (Some 5) None None)).

(** A node whose left child has no value but has a child of its own. *)
Definition hollow_child_tree : tree :=
  Node (Some 5) (Some (Node None (Some (Node (Some 1) None None)) None)) None.

(** ** Scenarios of the tests and of the spec *)

Example scenario_insert :
  insert_all new [3; 5] = Some (Node (Some 3) None (Some (leaf 5)), [Ok 3; Ok 5]).
Proof. reflexivity. Qed.

Example scenario_remove_both :
  (p <- insert_all new [3; 5; 1] ;; remove (fst p) 3)
  = Some (Node (Some 1) None (Some (leaf 5)), Ok 3).
Proof. reflexivity. Qed.

Example scenario_recursive_collapse :
  (p <- insert_all new [5; 3; 1; 4; 8] ;; remove (fst p) 5)
  = Some (Node (Some 4) (Some (Node (Some 3) (Some (leaf 1)) None)) (Some (leaf 8)), Ok 5).
Proof. reflexivity. Qed.

Example scenario_lost :
  (p <- insert_all new [5; 2; 8; 1] ;; remove (fst p) 5)
  = Some (Node (Some 2) None (Some (leaf 8)), Ok 5).
Proof. reflexivity. Qed.

(** ** Basic lemmas *)

Lemma elements_Node sv l r :
  elements (Node sv l r) =
  oelements l ++ match sv with None => [] | Some x => [x] end ++ oelements r.
Proof. destruct l, r; reflexivity. Qed.

Lemma prune_valued t : valued_children t -> prune t = t.
Proof.
  destruct t as [sv [[cv cl cr]|] [[dv dl dr]|]]; simpl; intros H;
    try destruct cv; try destruct dv; simpl in *; firstorder congruence.
Qed.

Lemma insert_total t v : exists p, insert t v = Some p.
Proof.
  induction t as [sv l r IHl IHr] using tree_ind.
  destruct sv as [x|]; simpl; [|eauto].
  destruct (Z.compare v x).
  - simpl; eauto.
  - destruct l as [c|]; simpl; [|eauto].
    destruct IHl as [[c' res] ->]; simpl; destruct res; eauto.
  - destruct r as [c|]; simpl; [|eauto].
    destruct IHr as [[c' res] ->]; simpl; destruct res; eauto.
Qed.

Lemma remove_total t v : exists p, remove t v = Some p.
Proof.
  induction t as [sv l r IHl IHr] using tree_ind.
  destruct sv as [x|]; simpl; [|eauto].
  destruct (Z.compare v x).
  - destruct l as [lc|], r as [rc|]; simpl; eauto;
      destruct (collapse_rightmost lc); simpl; eauto.
  - destruct l as [c|]; simpl; [|eauto].
    destruct IHl as [[c' res] ->]; simpl; eauto.
  - destruct r as [c|]; simpl; [|eauto].
    destruct IHr as [[c' res] ->]; simpl; eauto.
Qed.

Lemma child_wf sv l r c :
  valued_children (Node sv l r) -> (l = Some c \/ r = Some c) -> wf c.
Proof.
  simpl; intros [Hl Hr] [-> | ->]; [destruct Hl | destruct Hr];
    (split; [assumption | intro; contradiction]).
Qed.

(** *** insert *)

Lemma insert_val t v t' r : insert t v = Some (t', r) -> tval t' <> None.
Proof.
  destruct t as [[x|] l rr]; simpl; intros H; [|injection H as <- _; discriminate].
  destruct (Z.compare v x); [injection H as <- _; discriminate| |];
    [destruct l as [c|] | destruct rr as [c|]]; simpl in H;
    try (injection H as <- _; discriminate);
    destruct (insert c v) as [[c' [|]]|]; simpl in H; try discriminate;
    injection H as <- _; discriminate.
Qed.

Lemma insert_err t v t' e :
  insert t v = Some (t', Err e) -> t' = t /\ e = v /\ In v (elements t).
Proof.
  revert t' e.
  induction t as [sv l r IHl IHr] using tree_ind; intros t' e H.
  destruct sv as [x|]; simpl in H; [|discriminate].
  rewrite elements_Node.
  destruct (Z.compare_spec v x) as [->|Hlt|Hgt].
  - injection H as <- <-; split; [reflexivity|split; [reflexivity|]].
    apply in_or_app; right; left; reflexivity.
  - destruct l as [c|]; simpl in H; [|discriminate].
    destruct (insert c v) as [[c' [|e']]|] eqn:Hc; simpl in H; try discriminate.
    injection H as <- <-.
    destruct (IHl _ _ Hc) as [-> [-> Hin]].
    split; [reflexivity|split; [reflexivity|]].
    apply in_or_app; left; exact Hin.
  - destruct r as [c|]; simpl in H; [|discriminate].
    destruct (insert c v) as [[c' [|e']]|] eqn:Hc; simpl in H; try discriminate.
    injection H as <- <-.
    destruct (IHr _ _ Hc) as [-> [-> Hin]].
    split; [reflexivity|split; [reflexivity|]].
    apply in_or_app; right; apply in_or_app; right; exact Hin.
Qed.

Lemma insert_ok t v t' w :
  insert t v = Some (t', Ok w) ->
  w = v /\ exists a b, elements t = a ++ b /\ elements t' = a ++ v :: b.
Proof.
  revert t' w.
  induction t as [sv l r IHl IHr] using tree_ind; intros t' w H.
  destruct sv as [x|]; simpl in H.
  2:{ injection H as <- <-; split; [reflexivity|].
      exists (oelements l), (oelements r); rewrite !elements_Node; auto. }
  destruct (Z.compare_spec v x) as [->|Hlt|Hgt]; [discriminate| |].
  - destruct l as [c|]; simpl in H.
    2:{ injection H as <- <-; split; [reflexivity|].
        exists [], (x :: oelements r); rewrite !elements_Node; auto. }
    destruct (insert c v) as [[c' [w'|]]|] eqn:Hc; simpl in H; try discriminate.
    injection H as <- <-; split; [reflexivity|].
    destruct (IHl _ _ Hc) as [_ [a [b [Ha Hb]]]].
    exists a, (b ++ x :: oelements r); rewrite !elements_Node; simpl.
    rewrite Ha, Hb, <- !app_assoc; auto.
  - destruct r as [c|]; simpl in H.
    2:{ injection H as <- <-; split; [reflexivity|].
        exists (oelements l ++ [x]), []; rewrite !elements_Node.
        simpl; rewrite app_nil_r, <- app_assoc; auto. }
    destruct (insert c v) as [[c' [w'|]]|] eqn:Hc; simpl in H; try discriminate.
    injection H as <- <-; split; [reflexivity|].
    destruct (IHr _ _ Hc) as [_ [a [b [Ha Hb]]]].
    exists (oelements l ++ x :: a), b; rewrite !elements_Node; simpl.
    rewrite Ha, Hb, <- !app_assoc; auto.
Qed.

Lemma Forall_mid (P : Z -> Prop) a b v :
  Forall P (a ++ b) -> P v -> Forall P (a ++ v :: b).
Proof.
  rewrite !Forall_app; intros [Ha Hb] Hv; split; [exact Ha | constructor; assumption].
Qed.

Lemma in_node_left v x a b :
  In v (a ++ [x] ++ b) -> Forall (fun y => x < y) b -> v < x -> In v a.
Proof.
  intros Hin Hb Hlt; apply in_app_or in Hin as [Hin | [<- | Hin]]; auto; [lia|].
  rewrite Forall_forall in Hb; specialize (Hb _ Hin); lia.
Qed.

Lemma in_node_right v x a b :
  In v (a ++ [x] ++ b) -> Forall (fun y => y < x) a -> x < v -> In v b.
Proof.
  intros Hin Ha Hlt; apply in_app_or in Hin as [Hin | [<- | Hin]]; auto; [|lia].
  rewrite Forall_forall in Ha; specialize (Ha _ Hin); lia.
Qed.

Lemma wf_empty_root l r : wf (Node None l r) -> l = None /\ r = None.
Proof. intros [_ H]; apply H; reflexivity. Qed.

Lemma insert_found t v :
  wf t -> ordered t -> In v (elements t) -> insert t v = Some (t, Err v).
Proof.
  induction t as [sv l r IHl IHr] using tree_ind; intros Hwf Ho Hin.
  destruct sv as [x|].
  2:{ destruct (wf_empty_root _ _ Hwf) as [-> ->]; destruct Hin. }
  rewrite elements_Node in Hin.
  pose proof (proj1 Hwf) as Hvc.
  destruct Ho as [[Hol Hor] [Hl Hr]].
  simpl; destruct (Z.compare_spec v x) as [->|Hlt|Hgt]; [reflexivity| |].
  - pose proof (in_node_left _ _ _ _ Hin Hor Hlt) as Hin'.
    destruct l as [c|]; [|destruct Hin'].
    simpl in IHl; rewrite (IHl (child_wf _ _ _ _ Hvc (or_introl eq_refl)) Hl Hin').
    reflexivity.
  - pose proof (in_node_right _ _ _ _ Hin Hol Hgt) as Hin'.
    destruct r as [c|]; [|destruct Hin'].
    simpl in IHr; rewrite (IHr (child_wf _ _ _ _ Hvc (or_intror eq_refl)) Hr Hin').
    reflexivity.
Qed.

Lemma insert_wf t v t' res : wf t -> insert t v = Some (t', res) -> wf t'.
Proof.
  revert t' res.
  induction t as [sv l r IHl IHr] using tree_ind; intros t' res Hwf H.
  destruct sv as [x|]; simpl in H.
  2:{ destruct (wf_empty_root _ _ Hwf) as [-> ->]; injection H as <- _.
      split; [split; exact I | intro; discriminate]. }
  pose proof (proj1 Hwf) as Hvc.
  destruct Hwf as [[Hvl Hvr] _].
  destruct (Z.compare v x).
  - injection H as <- _; split; [split; assumption | intro; discriminate].
  - destruct l as [c|]; simpl in H.
    + destruct (insert c v) as [[c' res']|] eqn:Hc; simpl in H; [|discriminate].
      assert (Hw : wf c') by
        (exact (IHl _ _ (child_wf _ _ _ _ Hvc (or_introl eq_refl)) Hc)).
      assert (Hv : tval c' <> None) by (eapply insert_val; exact Hc).
      destruct res'; injection H as <- _;
        (split; [split; [split; [exact Hv | exact (proj1 Hw)] | exact Hvr]
                | intro; discriminate]).
    + injection H as <- _.
      split; [split; [split; [discriminate | split; exact I] | exact Hvr]
             | intro; discriminate].
  - destruct r as [c|]; simpl in H.
    + destruct (insert c v) as [[c' res']|] eqn:Hc; simpl in H; [|discriminate].
      assert (Hw : wf c') by
        (exact (IHr _ _ (child_wf _ _ _ _ Hvc (or_intror eq_refl)) Hc)).
      assert (Hv : tval c' <> None) by (eapply insert_val; exact Hc).
      destruct res'; injection H as <- _;
        (split; [split; [exact Hvl | split; [exact Hv | exact (proj1 Hw)]]
                | intro; discriminate]).
    + injection H as <- _.
      split; [split; [exact Hvl | split; [discriminate | split; exact I]]
             | intro; discriminate].
Qed.

Lemma insert_ordered t v t' res :
  wf t -> ordered t -> insert t v = Some (t', res) -> ordered t'.
Proof.
  destruct res as [w|e].
  2:{ intros _ Ho H; apply insert_err in H as [-> _]; exact Ho. }
  revert t' w.
  induction t as [sv l r IHl IHr] using tree_ind; intros t' w Hwf Ho H.
  destruct sv as [x|]; simpl in H.
  2:{ destruct (wf_empty_root _ _ Hwf) as [-> ->]; injection H as <- _.
      repeat constructor. }
  pose proof (proj1 Hwf) as Hvc.
  destruct Ho as [[Hol Hor] [Hl Hr]].
  destruct (Z.compare_spec v x) as [->|Hlt|Hgt]; [discriminate| |].
  - destruct l as [c|]; simpl in H.
    + destruct (insert c v) as [[c' [w'|e']]|] eqn:Hc; simpl in H; try discriminate.
      injection H as <- _.
      destruct (insert_ok _ _ _ _ Hc) as [_ [a [b [Ha Hb]]]].
      simpl in Hol |- *; rewrite Ha in Hol; rewrite Hb.
      split; [split; [apply Forall_mid; assumption | exact Hor]|split; [|exact Hr]].
      exact (IHl _ _ (child_wf _ _ _ _ Hvc (or_introl eq_refl)) Hl Hc).
    + injection H as <- _; simpl.
      split; [split; [constructor; [exact Hlt | constructor] | exact Hor]|].
      split; [repeat constructor | exact Hr].
  - destruct r as [c|]; simpl in H.
    + destruct (insert c v) as [[c' [w'|e']]|] eqn:Hc; simpl in H; try discriminate.
      injection H as <- _.
      destruct (insert_ok _ _ _ _ Hc) as [_ [a [b [Ha Hb]]]].
      simpl in Hor |- *; rewrite Ha in Hor; rewrite Hb.
      split; [split; [exact Hol | apply Forall_mid; assumption]|split; [exact Hl|]].
      exact (IHr _ _ (child_wf _ _ _ _ Hvc (or_intror eq_refl)) Hr Hc).
    + injection H as <- _; simpl.
      split; [split; [exact Hol | constructor; [exact Hgt | constructor]]|].
      split; [exact Hl | repeat constructor].
Qed.

(** *** prune and collapse_rightmost *)

Lemma node_eta c : Node (tval c) (tleft c) (tright c) = c.
Proof. destruct c; reflexivity. Qed.

Lemma prune_val t : tval (prune t) = tval t.
Proof. destruct t; reflexivity. Qed.

Lemma prune_incl t : incl (elements (prune t)) (elements t).
Proof.
  destruct t as [sv l r]; intros y.
  destruct l as [[[cv|] cl cr]|], r as [[[dv|] dl dr]|]; simpl;
    rewrite ?elements_Node; simpl; rewrite ?in_app_iff; simpl; tauto.
Qed.

Lemma prune_ordered t : ordered t -> ordered (prune t).
Proof.
  destruct t as [sv l r].
  destruct l as [[[cv|] cl cr]|], r as [[[dv|] dl dr]|]; simpl; try tauto;
    destruct sv; simpl; intros H;
    repeat match goal with Hc : _ /\ _ |- _ => destruct Hc end;
    repeat split; try assumption; constructor.
Qed.

Lemma prune_valued_children sv l r :
  on_child valued_children l -> on_child valued_children r ->
  valued_children (prune (Node sv l r)).
Proof.
  destruct l as [[[cv|] cl cr]|], r as [[[dv|] dl dr]|]; simpl; intros Hl Hr;
    repeat split; try (intro Hn; discriminate Hn); tauto.
Qed.

Lemma Forall_incl_rev (P : Z -> Prop) a b : incl a b -> Forall P b -> Forall P a.
Proof.
  rewrite !Forall_forall; intros Hi Hb y Hy; apply Hb, Hi, Hy.
Qed.

Lemma collapse_incl t t' w :
  collapse_rightmost t = (t', w) ->
  incl (elements t') (elements t) /\ (forall m, w = Some m -> In m (elements t)).
Proof.
  revert t' w.
  induction t as [sv l r IHl IHr] using tree_ind; intros t' w H.
  destruct r as [c|]; cbn [collapse_rightmost] in H.
  - destruct (collapse_rightmost c) as [c' w'] eqn:Hc; cbv beta iota in H.
    injection H as <- <-.
    destruct (IHr _ _ Hc) as [Hi Hm]; split.
    + intros y Hy; apply (prune_incl (Node sv l (Some c'))) in Hy.
      rewrite elements_Node in Hy |- *; simpl in *.
      rewrite in_app_iff in *; destruct Hy as [Hy | Hy]; [tauto|].
      rewrite in_app_iff in *; destruct Hy as [Hy | Hy]; [tauto|].
      right; right; apply Hi, Hy.
    + intros m Hw; rewrite elements_Node, !in_app_iff; right; right; apply Hm, Hw.
  - injection H as <- <-; split.
    + intros y Hy; apply (prune_incl (Node None l None)) in Hy.
      rewrite elements_Node in Hy |- *; rewrite !in_app_iff in *; simpl in *; tauto.
    + intros m ->; rewrite elements_Node, !in_app_iff; simpl; tauto.
Qed.

Lemma collapse_valued t : valued_children t -> valued_children (fst (collapse_rightmost t)).
Proof.
  induction t as [sv l r IHl IHr] using tree_ind; intros [Hl Hr].
  destruct r as [c|]; cbn [collapse_rightmost fst].
  - destruct (collapse_rightmost c) as [c' w'] eqn:Hc; cbn [fst].
    apply prune_valued_children.
    + destruct l; [exact (proj2 Hl) | exact I].
    + simpl in IHr |- *; specialize (IHr (proj2 Hr)); rewrite Hc in IHr; exact IHr.
  - apply prune_valued_children; [destruct l; [exact (proj2 Hl) | exact I] | exact I].
Qed.

Lemma collapse_some t :
  valued_children t -> tval t <> None -> exists m, snd (collapse_rightmost t) = Some m.
Proof.
  induction t as [[x|] l r IHl IHr] using tree_ind; intros [Hl Hr] Hv;
    [|contradiction].
  destruct r as [c|]; simpl; [|eauto].
  destruct (collapse_rightmost c) as [c' w'] eqn:Hc; simpl.
  simpl in IHr; destruct (IHr (proj2 Hr) (proj1 Hr)) as [m Hm].
  rewrite Hc in Hm; simpl in Hm; eauto.
Qed.

Lemma valued_children_split sv l r :
  valued_children (Node sv l r) ->
  on_child valued_children l /\ on_child valued_children r.
Proof.
  intros [Hl Hr]; split; [destruct l | destruct r]; simpl in *; tauto.
Qed.

Lemma collapse_ordered t t' m :
  valued_children t -> tval t <> None -> ordered t ->
  collapse_rightmost t = (t', Some m) ->
  ordered t' /\ Forall (fun y => y < m) (elements t').
Proof.
  revert t' m.
  induction t as [[x|] l r IHl IHr] using tree_ind; intros t' m Hvc Hv Ho H;
    [|contradiction].
  destruct Ho as [[Hol Hor] [Hl Hr]].
  destruct r as [c|]; cbn [collapse_rightmost] in H.
  - destruct (collapse_rightmost c) as [c' w'] eqn:Hc; cbv beta iota in H.
    injection H as <- ->.
    destruct Hvc as [Hvl [Hcv Hcc]].
    simpl in IHr; destruct (IHr _ _ Hcc Hcv Hr Hc) as [Ho' Hf'].
    destruct (collapse_incl _ _ _ Hc) as [Hi Hm]; specialize (Hm m eq_refl).
    simpl in Hor; assert (Hxm : x < m) by (rewrite Forall_forall in Hor; auto).
    split.
    + apply prune_ordered; simpl.
      split; [split; [exact Hol | exact (Forall_incl_rev _ _ _ Hi Hor)] | split; assumption].
    + apply (Forall_incl_rev _ _ _ (prune_incl _)).
      rewrite elements_Node; simpl; rewrite !Forall_app.
      split; [|constructor; [exact Hxm | exact Hf']].
      apply (Forall_impl _ (fun y (Hy : y < x) => Z.lt_trans _ _ _ Hy Hxm) Hol).
  - injection H as <- <-.
    split.
    + apply prune_ordered; simpl; split; [exact I | split; [exact Hl | exact I]].
    + apply (Forall_incl_rev _ _ _ (prune_incl _)).
      rewrite elements_Node; simpl; rewrite app_nil_r; exact Hol.
Qed.

(** *** remove *)

Lemma remove_err t v t' e :
  valued_children t -> remove t v = Some (t', Err e) -> t' = t /\ e = v.
Proof.
  revert t' e.
  induction t as [sv l r IHl IHr] using tree_ind; intros t' e Hvc H.
  destruct sv as [x|]; simpl in H; [|injection H as <- <-; auto].
  destruct (Z.compare v x).
  - destruct l as [lc|], r as [rc|]; simpl in H;
      try destruct (collapse_rightmost lc); simpl in H; discriminate.
  - destruct l as [c|]; simpl in H.
    + destruct (remove c v) as [[c' res']|] eqn:Hc; simpl in H; [|discriminate].
      injection H as <- ->.
      simpl in IHl; destruct (IHl _ _ (proj2 (proj1 Hvc)) Hc) as [-> ->].
      split; [apply prune_valued; exact Hvc | reflexivity].
    + injection H as <- <-; split; [apply prune_valued; exact Hvc | reflexivity].
  - destruct r as [c|]; simpl in H.
    + destruct (remove c v) as [[c' res']|] eqn:Hc; simpl in H; [|discriminate].
      injection H as <- ->.
      simpl in IHr; destruct (IHr _ _ (proj2 (proj2 Hvc)) Hc) as [-> ->].
      split; [apply prune_valued; exact Hvc | reflexivity].
    + injection H as <- <-; split; [apply prune_valued; exact Hvc | reflexivity].
Qed.

Lemma remove_ok t v t' w :
  remove t v = Some (t', Ok w) -> w = v /\ In v (elements t).
Proof.
  revert t' w.
  induction t as [sv l r IHl IHr] using tree_ind; intros t' w H.
  destruct sv as [x|]; simpl in H; [|discriminate].
  rewrite elements_Node, !in_app_iff.
  destruct (Z.compare_spec v x) as [->|Hlt|Hgt].
  - destruct l as [lc|], r as [rc|]; simpl in H;
      try destruct (collapse_rightmost lc); simpl in H;
      injection H as _ <-; simpl; tauto.
  - destruct l as [c|]; simpl in H; [|discriminate].
    destruct (remove c v) as [[c' res']|] eqn:Hc; simpl in H; [|discriminate].
    injection H as _ ->.
    simpl in IHl; destruct (IHl _ _ Hc) as [-> Hin]; tauto.
  - destruct r as [c|]; simpl in H; [|discriminate].
    destruct (remove c v) as [[c' res']|] eqn:Hc; simpl in H; [|discriminate].
    injection H as _ ->.
    simpl in IHr; destruct (IHr _ _ Hc) as [-> Hin]; tauto.
Qed.

Lemma remove_found t v :
  wf t -> ordered t -> In v (elements t) -> exists t', remove t v = Some (t', Ok v).
Proof.
  induction t as [sv l r IHl IHr] using tree_ind; intros Hwf Ho Hin.
  destruct sv as [x|].
  2:{ destruct (wf_empty_root _ _ Hwf) as [-> ->]; destruct Hin. }
  rewrite elements_Node in Hin.
  pose proof (proj1 Hwf) as Hvc.
  destruct Ho as [[Hol Hor] [Hl Hr]].
  simpl; destruct (Z.compare_spec v x) as [->|Hlt|Hgt].
  - destruct l as [lc|], r as [rc|]; simpl;
      try destruct (collapse_rightmost lc); simpl; eauto.
  - pose proof (in_node_left _ _ _ _ Hin Hor Hlt) as Hin'.
    destruct l as [c|]; [|destruct Hin'].
    simpl in IHl.
    destruct (IHl (child_wf _ _ _ _ Hvc (or_introl eq_refl)) Hl Hin') as [c' ->].
    simpl; eauto.
  - pose proof (in_node_right _ _ _ _ Hin Hol Hgt) as Hin'.
    destruct r as [c|]; [|destruct Hin'].
    simpl in IHr.
    destruct (IHr (child_wf _ _ _ _ Hvc (or_intror eq_refl)) Hr Hin') as [c' ->].
    simpl; eauto.
Qed.

Lemma remove_wf t v t' res : wf t -> remove t v = Some (t', res) -> wf t'.
Proof.
  revert t' res.
  induction t as [sv l r IHl IHr] using tree_ind; intros t' res Hwf H.
  destruct sv as [x|]; simpl in H; [|injection H as <- _; exact Hwf].
  pose proof (proj1 Hwf) as Hvc.
  destruct (valued_children_split _ _ _ Hvc) as [Hvl Hvr].
  destruct (Z.compare v x).
  - destruct l as [lc|], r as [rc|]; simpl in H.
    + destruct (collapse_rightmost lc) as [lc' w] eqn:Hcl; simpl in H.
      injection H as <- _.
      pose proof (collapse_valued lc Hvl) as Hv'; rewrite Hcl in Hv'.
      destruct (collapse_some lc Hvl (proj1 (proj1 Hvc))) as [m Hm].
      rewrite Hcl in Hm; simpl in Hm; subst w.
      split; [apply prune_valued_children; assumption
             | rewrite prune_val; intro; discriminate].
    + injection H as <- _; rewrite node_eta, prune_valued by exact Hvl.
      exact (child_wf _ _ _ _ Hvc (or_introl eq_refl)).
    + injection H as <- _; rewrite node_eta, prune_valued by exact Hvr.
      exact (child_wf _ _ _ _ Hvc (or_intror eq_refl)).
    + injection H as <- _; unfold prune; simpl.
      split; [split; exact I | auto].
  - destruct l as [c|]; simpl in H.
    + destruct (remove c v) as [[c' res']|] eqn:Hc; simpl in H; [|discriminate].
      injection H as <- _.
      simpl in IHl; pose proof (IHl _ _ (child_wf _ _ _ _ Hvc (or_introl eq_refl)) Hc) as Hw.
      split; [apply prune_valued_children; [exact (proj1 Hw) | exact Hvr]
             | rewrite prune_val; intro; discriminate].
    + injection H as <- _; rewrite prune_valued by exact Hvc; exact Hwf.
  - destruct r as [c|]; simpl in H.
    + destruct (remove c v) as [[c' res']|] eqn:Hc; simpl in H; [|discriminate].
      injection H as <- _.
      simpl in IHr; pose proof (IHr _ _ (child_wf _ _ _ _ Hvc (or_intror eq_refl)) Hc) as Hw.
      split; [apply prune_valued_children; [exact Hvl | exact (proj1 Hw)]
             | rewrite prune_val; intro; discriminate].
    + injection H as <- _; rewrite prune_valued by exact Hvc; exact Hwf.
Qed.

Lemma remove_incl t v t' res :
  remove t v = Some (t', res) -> incl (elements t') (elements t).
Proof.
  revert t' res.
  induction t as [sv l r IHl IHr] using tree_ind; intros t' res H.
  destruct sv as [x|]; simpl in H; [|injection H as <- _; apply incl_refl].
  destruct (Z.compare v x).
  - destruct l as [lc|], r as [rc|]; simpl in H.
    + destruct (collapse_rightmost lc) as [lc' w] eqn:Hcl; simpl in H.
      injection H as <- _.
      destruct (collapse_incl _ _ _ Hcl) as [Hi Hm].
      eapply incl_tran; [apply prune_incl|]; intros y Hy.
      specialize (Hi y); rewrite !elements_Node in *; simpl in *.
      destruct w as [m|]; [specialize (Hm m eq_refl)|]; simpl in *;
        rewrite !in_app_iff in *; simpl in *; intuition (subst; tauto).
    + injection H as <- _; rewrite node_eta.
      eapply incl_tran; [apply prune_incl|]; intros y Hy.
      rewrite elements_Node, !in_app_iff; simpl; tauto.
    + injection H as <- _; rewrite node_eta.
      eapply incl_tran; [apply prune_incl|]; intros y Hy.
      rewrite elements_Node, !in_app_iff; simpl; tauto.
    + injection H as <- _.
      eapply incl_tran; [apply prune_incl|]; intros y Hy; simpl in Hy; destruct Hy.
  - destruct l as [c|]; simpl in H.
    + destruct (remove c v) as [[c' res']|] eqn:Hc; simpl in H; [|discriminate].
      injection H as <- _.
      simpl in IHl; specialize (IHl _ _ Hc).
      eapply incl_tran; [apply prune_incl|]; intros y Hy.
      specialize (IHl y); rewrite !elements_Node, !in_app_iff in *; simpl in *; tauto.
    + injection H as <- _; apply prune_incl.
  - destruct r as [c|]; simpl in H.
    + destruct (remove c v) as [[c' res']|] eqn:Hc; simpl in H; [|discriminate].
      injection H as <- _.
      simpl in IHr; specialize (IHr _ _ Hc).
      eapply incl_tran; [apply prune_incl|]; intros y Hy.
      specialize (IHr y); rewrite !elements_Node, !in_app_iff in *; simpl in *; tauto.
    + injection H as <- _; apply prune_incl.
Qed.

Lemma remove_ordered t v t' res :
  wf t -> ordered t -> remove t v = Some (t', res) -> ordered t'.
Proof.
  revert t' res.
  induction t as [sv l r IHl IHr] using tree_ind; intros t' res Hwf Ho H.
  destruct sv as [x|]; simpl in H; [|injection H as <- _; exact Ho].
  pose proof (proj1 Hwf) as Hvc.
  destruct (valued_children_split _ _ _ Hvc) as [Hvl Hvr].
  destruct Ho as [[Hol Hor] [Hl Hr]].
  destruct (Z.compare v x).
  - destruct l as [lc|], r as [rc|]; simpl in H.
    + destruct (collapse_rightmost lc) as [lc' w] eqn:Hcl; simpl in H.
      injection H as <- _.
      destruct (collapse_some lc Hvl (proj1 (proj1 Hvc))) as [m Hm].
      rewrite Hcl in Hm; simpl in Hm; subst w.
      destruct (collapse_ordered _ _ _ Hvl (proj1 (proj1 Hvc)) Hl Hcl) as [Ho' Hf'].
      destruct (collapse_incl _ _ _ Hcl) as [_ Hm]; specialize (Hm m eq_refl).
      simpl in Hol, Hor.
      assert (Hmx : m < x) by (rewrite Forall_forall in Hol; auto).
      apply prune_ordered; simpl.
      split; [split; [exact Hf' |] | split; assumption].
      apply (Forall_impl _ (fun y (Hy : x < y) => Z.lt_trans _ _ _ Hmx Hy) Hor).
    + injection H as <- _; rewrite node_eta; apply prune_ordered; exact Hl.
    + injection H as <- _; rewrite node_eta; apply prune_ordered; exact Hr.
    + injection H as <- _; apply prune_ordered; simpl; auto.
  - destruct l as [c|]; simpl in H.
    + destruct (remove c v) as [[c' res']|] eqn:Hc; simpl in H; [|discriminate].
      injection H as <- _.
      simpl in IHl.
      pose proof (IHl _ _ (child_wf _ _ _ _ Hvc (or_introl eq_refl)) Hl Hc) as Ho'.
      apply prune_ordered; simpl.
      split; [split; [exact (Forall_incl_rev _ _ _ (remove_incl _ _ _ _ Hc) Hol) | exact Hor]
             | split; assumption].
    + injection H as <- _; apply prune_ordered; simpl; auto.
  - destruct r as [c|]; simpl in H.
    + destruct (remove c v) as [[c' res']|] eqn:Hc; simpl in H; [|discriminate].
      injection H as <- _.
      simpl in IHr.
      pose proof (IHr _ _ (child_wf _ _ _ _ Hvc (or_intror eq_refl)) Hr Hc) as Ho'.
      apply prune_ordered; simpl.
      split; [split; [exact Hol | exact (Forall_incl_rev _ _ _ (remove_incl _ _ _ _ Hc) Hor)]
             | split; assumption].
    + injection H as <- _; apply prune_ordered; simpl; auto.
Qed.

Lemma reachable_inv t : reachable t -> wf t /\ ordered t.
Proof.
  induction 1 as [| t v t' r _ [Hw Ho] H | t v t' r _ [Hw Ho] H].
  - split; [split; [split; exact I | auto] | split; [exact I | split; exact I]].
  - split; [eapply insert_wf | eapply insert_ordered]; eassumption.
  - split; [eapply remove_wf | eapply remove_ordered]; eassumption.
Qed.

(** *** Supporting lemmas for the claims *)

Lemma StronglySorted_mid a x b :
  StronglySorted Z.lt a -> StronglySorted Z.lt b ->
  Forall (fun y => y < x) a -> Forall (fun y => x < y) b ->
  StronglySorted Z.lt (a ++ x :: b).
Proof.
  induction a as [|y a IH]; intros Ha Hb Hax Hxb; simpl.
  - constructor; assumption.
  - apply StronglySorted_inv in Ha as [Ha Hya].
    inversion Hax as [|? ? Hyx Hax']; subst.
    constructor; [apply IH; assumption|].
    rewrite Forall_app; split; [exact Hya|].
    constructor; [exact Hyx|].
    apply (Forall_impl _ (fun z (Hz : x < z) => Z.lt_trans _ _ _ Hyx Hz) Hxb).
Qed.

Lemma ordered_sorted t : wf t -> ordered t -> StronglySorted Z.lt (elements t).
Proof.
  induction t as [sv l r IHl IHr] using tree_ind; intros Hwf Ho.
  destruct sv as [x|].
  2:{ destruct (wf_empty_root _ _ Hwf) as [-> ->]; constructor. }
  pose proof (proj1 Hwf) as Hvc.
  destruct Ho as [[Hol Hor] [Hl Hr]].
  rewrite elements_Node; simpl; apply StronglySorted_mid; try assumption.
  - destruct l as [c|]; [|constructor].
    exact (IHl (child_wf _ _ _ _ Hvc (or_introl eq_refl)) Hl).
  - destruct r as [c|]; [|constructor].
    exact (IHr (child_wf _ _ _ _ Hvc (or_intror eq_refl)) Hr).
Qed.

Lemma wf_no_hollow t : wf t -> no_hollow t.
Proof.
  induction t as [sv l r IHl IHr] using tree_ind; intros Hwf.
  pose proof (proj1 Hwf) as Hvc.
  split; [exact (proj2 Hwf)|split].
  - destruct l as [c|]; [|exact I].
    exact (IHl (child_wf _ _ _ _ Hvc (or_introl eq_refl))).
  - destruct r as [c|]; [|exact I].
    exact (IHr (child_wf _ _ _ _ Hvc (or_intror eq_refl))).
Qed.

Lemma insert_all_ok t0 xs t rs :
  reachable t0 -> insert_all t0 xs = Some (t, rs) ->
  Forall (fun r => is_ok r = true) rs ->
  reachable t /\ Permutation (elements t) (elements t0 ++ xs).
Proof.
  revert t0 t rs; induction xs as [|x xs IH]; intros t0 t rs Hr H Hok; simpl in H.
  - injection H as <- _; rewrite app_nil_r; auto.
  - destruct (insert t0 x) as [[t1 r1]|] eqn:H1; simpl in H; [|discriminate].
    destruct (insert_all t1 xs) as [[t2 rs2]|] eqn:H2; simpl in H; [|discriminate].
    injection H as <- <-.
    inversion Hok as [|? ? Hok1 Hoks]; subst.
    destruct r1 as [w|e]; [|discriminate].
    destruct (insert_ok _ _ _ _ H1) as [-> [a [b [Ha Hb]]]].
    destruct (IH t1 t2 rs2 (reach_insert _ _ _ _ Hr H1) H2 Hoks) as [Ht Hp].
    split; [exact Ht|].
    rewrite Hp, Hb, Ha, <- !app_assoc; simpl.
    apply Permutation_app_head, Permutation_middle.
Qed.

Lemma insert_all_reachable t0 xs t rs :
  reachable t0 -> insert_all t0 xs = Some (t, rs) -> reachable t.
Proof.
  revert t0 t rs; induction xs as [|x xs IH]; intros t0 t rs Hr H; simpl in H.
  - injection H as <- _; exact Hr.
  - destruct (insert t0 x) as [[t1 r1]|] eqn:H1; simpl in H; [|discriminate].
    destruct (insert_all t1 xs) as [[t2 rs2]|] eqn:H2; simpl in H; [|discriminate].
    injection H as <- _.
    exact (IH _ _ _ (reach_insert _ _ _ _ Hr H1) H2).
Qed.

(** The tree of the tests built by inserting 5, 2, 8, 1. *)
Lemma reachable_5281 :
  reachable (Node (Some 5) (Some (Node (Some 2) (Some (leaf 1)) None)) (Some (leaf 8))).
Proof. apply (insert_all_reachable new [5; 2; 8; 1] _ [Ok 5; Ok 2; Ok 8; Ok 1] reach_new). reflexivity. Qed.

Lemma stack_pops_push_all {A} (step : Stack.stack A -> Stack.stack A * option A) :
  (forall s, step s = Stack.pop s) ->
  forall xs s n,
    Stack.pops step (length xs + n) (Stack.push_all s xs)
    = map Some (rev xs) ++ Stack.pops step n s.
Proof.
  intros Hstep xs; induction xs as [|x xs IH]; intros s n; [reflexivity|].
  unfold Stack.push_all; simpl fold_left; fold (Stack.push_all (Stack.push s x) xs).
  replace (length (x :: xs) + n)%nat with (length xs + S n)%nat by (simpl; lia).
  rewrite IH; cbn [rev]; rewrite map_app, <- app_assoc; f_equal; simpl.
  rewrite Hstep; destruct s as [top]; reflexivity.
Qed.

Example stack_5_11 :
  Stack.pops Stack.pop 3 (Stack.push (Stack.push Stack.new 5) 11) = [Some 11; Some 5; None].
Proof. reflexivity. Qed.

Example no_hollow_alone_not_preserved :
  no_hollow dangling_tree /\
  remove dangling_tree 3 = Some (Node None (Some (leaf 2)) (Some (leaf 5)), Ok 3) /\
  ~ no_hollow (Node None (Some (leaf 2)) (Some (leaf 5))).
Proof.
  split; [simpl; intuition discriminate|split; [reflexivity|]].
  simpl; intros [H _]; destruct (H eq_refl) as [Hl _]; discriminate.
Qed.

(** ** Claims *)

(** C1 (defect): size conservation fails.  On the tree of inserts 5, 2, 8, 1,
    the successful [remove 5] takes the tree from 4 occupied nodes to 2: the
    predecessor 2 is promoted, and its left child 1 is deleted with it. *)
Theorem remove_5_drops_two_nodes :
  exists t t',
    insert_all new [5; 2; 8; 1] = Some (t, [Ok 5; Ok 2; Ok 8; Ok 1]) /\
    remove t 5 = Some (t', Ok 5) /\
    size t = 4%nat /\ size t' = 2%nat /\ elements t' = [2; 8].
Proof.
  exists (Node (Some 5) (Some (Node (Some 2) (Some (leaf 1)) None)) (Some (leaf 8))),
         (Node (Some 2) None (Some (leaf 8))).
  repeat (split; [reflexivity|]); reflexivity.
Qed.

(** C2 (defect): on the same tree, the two-children removal of 5 promotes the
    predecessor 2 and keeps the right subtree, but the left subtree, holding
    [1; 2] before, is left empty instead of holding [1]. *)
Theorem remove_5_left_subtree_lost :
  exists t t',
    insert_all new [5; 2; 8; 1] = Some (t, [Ok 5; Ok 2; Ok 8; Ok 1]) /\
    remove t 5 = Some (t', Ok 5) /\
    oelements (tleft t) = [1; 2] /\
    tval t' = Some 2 /\ tright t' = tright t /\ oelements (tleft t') = [].
Proof.
  exists (Node (Some 5) (Some (Node (Some 2) (Some (leaf 1)) None)) (Some (leaf 8))),
         (Node (Some 2) None (Some (leaf 8))).
  repeat (split; [reflexivity|]); reflexivity.
Qed.

(** C3 (counterexample): [prune] deletes a left child that has no value
    although that child still has a child of its own. *)
Lemma prune_drops_child_with_child :
  (exists c, tleft hollow_child_tree = Some c /\ tval c = None /\ tleft c <> None) /\
  tleft (prune hollow_child_tree) = None.
Proof.
  split; [eexists; split; [reflexivity | split; [reflexivity | discriminate]] | reflexivity].
Qed.

(** C3 (amended): [prune] keeps the node's value, and keeps a child reference
    exactly when the child exists and holds a value; a child with no value is
    set to absent whatever its own children, and symmetrically on the right. *)
Theorem prune_children t :
  tval (prune t) = tval t /\
  (forall c, tleft (prune t) = Some c <-> tleft t = Some c /\ tval c <> None) /\
  (forall c, tright (prune t) = Some c <-> tright t = Some c /\ tval c <> None).
Proof.
  destruct t as [sv l r].
  destruct l as [[[cv|] cl cr]|], r as [[[dv|] dl dr]|]; unfold prune; simpl;
    repeat (split || intro);
    repeat match goal with
           | H : _ /\ _ |- _ => destruct H
           | H : Some _ = Some _ |- _ => injection H as H
           end; subst; simpl in *; try congruence.
Qed.

(** C4: on every tree a client can hold, a failed [insert] (duplicate) and a
    failed [remove] (not found) return the tree exactly as it was. *)
Theorem failed_ops_atomic t v :
  reachable t ->
  (forall t' e, insert t v = Some (t', Err e) -> t' = t) /\
  (forall t' e, remove t v = Some (t', Err e) -> t' = t).
Proof.
  intros Hr; destruct (reachable_inv _ Hr) as [[Hvc _] _].
  split; intros t' e H; [apply insert_err in H | apply remove_err in H]; tauto.
Qed.

Lemma failed_ops_atomic_witness :
  reachable (Node (Some 5) (Some (Node (Some 2) (Some (leaf 1)) None)) (Some (leaf 8))) /\
  (forall t' e, insert (Node (Some 5) (Some (Node (Some 2) (Some (leaf 1)) None)) (Some (leaf 8))) 1
                = Some (t', Err e) ->
                t' = Node (Some 5) (Some (Node (Some 2) (Some (leaf 1)) None)) (Some (leaf 8))) /\
  (forall t' e, remove (Node (Some 5) (Some (Node (Some 2) (Some (leaf 1)) None)) (Some (leaf 8))) 1
                = Some (t', Err e) ->
                t' = Node (Some 5) (Some (Node (Some 2) (Some (leaf 1)) None)) (Some (leaf 8))).
Proof.
  split; [exact reachable_5281 | apply (failed_ops_atomic _ _ reachable_5281)].
Defined.

(** C5: on every tree a client can hold, [remove v] fails exactly when [v] is
    not in the tree, its error carries [v] itself, and its success carries the
    value stored at the matched node (equal to [v], and present in the tree). *)
Theorem remove_result t v t' res :
  reachable t -> remove t v = Some (t', res) ->
  ((exists e, res = Err e) <-> ~ In v (elements t)) /\
  (forall e, res = Err e -> e = v) /\
  (forall w, res = Ok w -> w = v /\ In w (elements t)).
Proof.
  intros Hr H; destruct (reachable_inv _ Hr) as [Hwf Ho].
  split; [split|split].
  - intros [e ->] Hin.
    destruct (remove_found _ _ Hwf Ho Hin) as [t'' H']; rewrite H' in H; discriminate.
  - intros Hnin; destruct res as [w|e]; [|eauto].
    apply remove_ok in H as [_ Hin]; contradiction.
  - intros e ->; apply remove_err in H as [_ ->]; [reflexivity | exact (proj1 Hwf)].
  - intros w ->; apply remove_ok in H as [-> Hin]; auto.
Qed.

Lemma remove_result_witness :
  reachable (Node (Some 5) (Some (Node (Some 2) (Some (leaf 1)) None)) (Some (leaf 8))) /\
  remove (Node (Some 5) (Some (Node (Some 2) (Some (leaf 1)) None)) (Some (leaf 8))) 7
    = Some (Node (Some 5) (Some (Node (Some 2) (Some (leaf 1)) None)) (Some (leaf 8)), Err 7) /\
  (((exists e, Err 7 = Err e) <->
    ~ In 7 (elements (Node (Some 5) (Some (Node (Some 2) (Some (leaf 1)) None)) (Some (leaf 8))))) /\
   (forall e, Err 7 = Err e -> e = 7) /\
   (forall w, Err 7 = Ok w ->
      w = 7 /\ In w (elements (Node (Some 5) (Some (Node (Some 2) (Some (leaf 1)) None))
                                    (Some (leaf 8)))))).
Proof.
  split; [exact reachable_5281|split; [reflexivity|]].
  apply (remove_result _ 7
           (Node (Some 5) (Some (Node (Some 2) (Some (leaf 1)) None)) (Some (leaf 8)))
           (Err 7) reachable_5281); reflexivity.
Defined.

(** C6: on every tree a client can hold, inserting a value not in the tree
    succeeds and the value is then present; inserting it again, and every
    insert of a value already present, fails with the stored value and leaves
    the tree unchanged. *)
Theorem insert_set_semantics t v :
  reachable t ->
  (~ In v (elements t) ->
     exists t1, insert t v = Some (t1, Ok v) /\ In v (elements t1) /\
                insert t1 v = Some (t1, Err v)) /\
  (In v (elements t) -> insert t v = Some (t, Err v)).
Proof.
  intros Hr; destruct (reachable_inv _ Hr) as [Hwf Ho].
  split; [|apply insert_found; assumption].
  intros Hnin; destruct (insert_total t v) as [[t1 [w|e]] H].
  - destruct (insert_ok _ _ _ _ H) as [-> [a [b [_ Hb]]]].
    assert (Hin : In v (elements t1)) by (rewrite Hb; apply in_or_app; right; left; reflexivity).
    destruct (reachable_inv _ (reach_insert _ _ _ _ Hr H)) as [Hwf1 Ho1].
    exists t1; split; [exact H | split; [exact Hin | apply insert_found; assumption]].
  - apply insert_err in H as [_ [_ Hin]]; contradiction.
Qed.

Lemma insert_set_semantics_witness :
  reachable (Node (Some 5) (Some (Node (Some 2) (Some (leaf 1)) None)) (Some (leaf 8))) /\
  (~ In 3 (elements (Node (Some 5) (Some (Node (Some 2) (Some (leaf 1)) None)) (Some (leaf 8)))) ->
   exists t1,
     insert (Node (Some 5) (Some (Node (Some 2) (Some (leaf 1)) None)) (Some (leaf 8))) 3
       = Some (t1, Ok 3) /\ In 3 (elements t1) /\ insert t1 3 = Some (t1, Err 3)) /\
  (In 3 (elements (Node (Some 5) (Some (Node (Some 2) (Some (leaf 1)) None)) (Some (leaf 8)))) ->
   insert (Node (Some 5) (Some (Node (Some 2) (Some (leaf 1)) None)) (Some (leaf 8))) 3
     = Some (Node (Some 5) (Some (Node (Some 2) (Some (leaf 1)) None)) (Some (leaf 8)), Err 3)).
Proof.
  split; [exact reachable_5281 | apply (insert_set_semantics _ 3 reachable_5281)].
Defined.

(** C7: after a sequence of successful inserts from [new], the tree is a BST
    (left values strictly smaller, right values strictly greater at every
    occupied node), and its in-order traversal is strictly increasing and is
    a permutation of the inserted values. *)
Theorem inserts_sorted xs t rs :
  insert_all new xs = Some (t, rs) -> Forall (fun r => is_ok r = true) rs ->
  ordered t /\ StronglySorted Z.lt (elements t) /\ Permutation (elements t) xs.
Proof.
  intros H Hok.
  destruct (insert_all_ok _ _ _ _ reach_new H Hok) as [Hr Hp].
  destruct (reachable_inv _ Hr) as [Hwf Ho].
  split; [exact Ho | split; [apply ordered_sorted; assumption | exact Hp]].
Qed.

Lemma inserts_sorted_witness :
  insert_all new [5; 2; 8; 1]
    = Some (Node (Some 5) (Some (Node (Some 2) (Some (leaf 1)) None)) (Some (leaf 8)),
            [Ok 5; Ok 2; Ok 8; Ok 1]) /\
  Forall (fun r => is_ok r = true) [Ok 5; Ok 2; Ok 8; Ok 1] /\
  (ordered (Node (Some 5) (Some (Node (Some 2) (Some (leaf 1)) None)) (Some (leaf 8))) /\
   StronglySorted Z.lt
     (elements (Node (Some 5) (Some (Node (Some 2) (Some (leaf 1)) None)) (Some (leaf 8)))) /\
   Permutation
     (elements (Node (Some 5) (Some (Node (Some 2) (Some (leaf 1)) None)) (Some (leaf 8))))
     [5; 2; 8; 1]).
Proof.
  split; [reflexivity | split; [repeat constructor |]].
  apply (inserts_sorted [5; 2; 8; 1] _ [Ok 5; Ok 2; Ok 8; Ok 1]);
    [reflexivity | repeat constructor].
Defined.

(** C8: a [remove] (successful or failed) on a tree a client can hold, which
    has no hollow node, leaves no hollow node: no node without a value has a
    child.  (Every such tree also has no dangling empty child, and that is
    needed: see [no_hollow_alone_not_preserved].) *)
Theorem remove_no_hollow t v t' res :
  reachable t -> no_hollow t -> remove t v = Some (t', res) -> no_hollow t'.
Proof.
  intros Hr _ H; destruct (reachable_inv _ Hr) as [Hwf _].
  apply wf_no_hollow, (remove_wf _ _ _ _ Hwf H).
Qed.

Lemma remove_no_hollow_witness :
  reachable (Node (Some 5) (Some (Node (Some 2) (Some (leaf 1)) None)) (Some (leaf 8))) /\
  no_hollow (Node (Some 5) (Some (Node (Some 2) (Some (leaf 1)) None)) (Some (leaf 8))) /\
  remove (Node (Some 5) (Some (Node (Some 2) (Some (leaf 1)) None)) (Some (leaf 8))) 5
    = Some (Node (Some 2) None (Some (leaf 8)), Ok 5) /\
  no_hollow (Node (Some 2) None (Some (leaf 8))).
Proof.
  assert (Hn : no_hollow (Node (Some 5) (Some (Node (Some 2) (Some (leaf 1)) None))
                               (Some (leaf 8))))
    by (simpl; intuition discriminate).
  split; [exact reachable_5281 | split; [exact Hn | split; [reflexivity|]]].
  apply (remove_no_hollow _ 5 _ (Ok 5) reachable_5281 Hn); reflexivity.
Defined.

(** C9: [pop] on an empty stack gives [None]; after pushing [xs] on a new
    stack, repeated pops, and repeated [next] calls of the iterator, give the
    values of [xs] in reverse push order, then [None]. *)
Theorem stack_lifo {A} (xs : list A) :
  snd (Stack.pop (@Stack.new A)) = None /\
  Stack.pops Stack.pop (length xs + 1) (Stack.push_all Stack.new xs)
    = map Some (rev xs) ++ [None] /\
  Stack.pops Stack.next (length xs + 1) (Stack.push_all Stack.new xs)
    = map Some (rev xs) ++ [None].
Proof.
  split; [reflexivity|split].
  - rewrite (stack_pops_push_all Stack.pop (fun s => eq_refl)); reflexivity.
  - rewrite (stack_pops_push_all Stack.next (fun s => eq_refl)); reflexivity.
Qed.

(** C10: [insert] and [remove] never reach a failing [unwrap] ([collapse_rightmost]
    has none): on every tree, invariant or not, they return. *)
Theorem no_panic t v :
  (exists p, insert t v = Some p) /\ (exists p, remove t v = Some p).
Proof. split; [apply insert_total | apply remove_total]. Qed.

(** ** Further properties of the code *)

Lemma in_prune_node v sv l r :
  In v (elements (prune (Node sv l r))) ->
  In v (oelements l) \/ sv = Some v \/ In v (oelements r).
Proof.
  intros H; apply (prune_incl (Node sv l r)) in H.
  rewrite elements_Node, !in_app_iff in H.
  destruct sv; simpl in H; intuition (subst; auto).
Qed.

Lemma remove_absent t v t' w :
  wf t -> ordered t -> remove t v = Some (t', Ok w) -> ~ In v (elements t').
Proof.
  revert t' w.
  induction t as [sv l r IHl IHr] using tree_ind; intros t' w Hwf Ho H Hin.
  destruct sv as [x|]; simpl in H; [|discriminate].
  pose proof (proj1 Hwf) as Hvc.
  destruct Ho as [[Hol Hor] [Hl Hr]].
  rewrite Forall_forall in Hol, Hor.
  destruct (Z.compare_spec v x) as [<-|Hlt|Hgt].
  - destruct l as [lc|], r as [rc|]; simpl in H.
    + destruct (collapse_rightmost lc) as [lc' w'] eqn:Hcl; simpl in H.
      injection H as <- _.
      destruct (collapse_incl _ _ _ Hcl) as [Hi Hm].
      apply in_prune_node in Hin; simpl in Hin, Hol, Hor.
      destruct Hin as [Hin | [Hin | Hin]].
      * apply Hi, Hol in Hin; lia.
      * subst w'; specialize (Hol _ (Hm v eq_refl)); lia.
      * specialize (Hor _ Hin); lia.
    + injection H as <- _; rewrite node_eta in Hin.
      apply (prune_incl lc) in Hin; specialize (Hol _ Hin); lia.
    + injection H as <- _; rewrite node_eta in Hin.
      apply (prune_incl rc) in Hin; specialize (Hor _ Hin); lia.
    + injection H as <- _; apply (prune_incl (Node None None None)) in Hin; destruct Hin.
  - destruct l as [c|]; simpl in H; [|discriminate].
    destruct (remove c v) as [[c' res']|] eqn:Hc; simpl in H; [|discriminate].
    injection H as <- ->.
    apply in_prune_node in Hin; destruct Hin as [Hin | [Hin | Hin]].
    + simpl in IHl, Hin.
      exact (IHl _ _ (child_wf _ _ _ _ Hvc (or_introl eq_refl)) Hl Hc Hin).
    + injection Hin as Hin; lia.
    + specialize (Hor _ Hin); lia.
  - destruct r as [c|]; simpl in H; [|discriminate].
    destruct (remove c v) as [[c' res']|] eqn:Hc; simpl in H; [|discriminate].
    injection H as <- ->.
    apply in_prune_node in Hin; destruct Hin as [Hin | [Hin | Hin]].
    + specialize (Hol _ Hin); lia.
    + injection Hin as Hin; lia.
    + simpl in IHr, Hin.
      exact (IHr _ _ (child_wf _ _ _ _ Hvc (or_intror eq_refl)) Hr Hc Hin).
Qed.

Lemma StronglySorted_NoDup l : StronglySorted Z.lt l -> NoDup l.
Proof.
  induction 1 as [|a l _ IH Ha]; constructor; [|exact IH].
  intros Hin; rewrite Forall_forall in Ha; specialize (Ha _ Hin); lia.
Qed.

(** X1: a successful [insert] returns the inserted value and adds exactly that
    value to the tree: one more occupied node, the other values kept. *)
Theorem insert_success_adds t v t' w :
  insert t v = Some (t', Ok w) ->
  w = v /\ Permutation (elements t') (v :: elements t) /\ size t' = S (size t).
Proof.
  intros H; destruct (insert_ok _ _ _ _ H) as [-> [a [b [Ha Hb]]]].
  split; [reflexivity|split].
  - rewrite Ha, Hb; symmetry; apply Permutation_middle.
  - unfold size; rewrite Ha, Hb, !length_app; simpl; lia.
Qed.

Lemma insert_success_adds_witness :
  insert (leaf 3) 5 = Some (Node (Some 3) None (Some (leaf 5)), Ok 5) /\
  (5 = 5 /\ Permutation (elements (Node (Some 3) None (Some (leaf 5)))) (5 :: elements (leaf 3)) /\
   size (Node (Some 3) None (Some (leaf 5))) = S (size (leaf 3))).
Proof.
  split; [reflexivity|].
  apply (insert_success_adds (leaf 3) 5 _ 5); reflexivity.
Defined.







(** X5: after a successful [remove v] on a tree a client holds, [v] is gone:
    removing it again fails with [v] and leaves the tree unchanged, and
    inserting it again succeeds. *)
Theorem remove_then_absent t v t' w :
  reachable t -> remove t v = Some (t', Ok w) ->
  ~ In v (elements t') /\ remove t' v = Some (t', Err v) /\
  exists t'', insert t' v = Some (t'', Ok v).
Proof.
  intros Hr H.
  destruct (reachable_inv _ Hr) as [Hwf Ho].
  pose proof (remove_absent _ _ _ _ Hwf Ho H) as Hnin.
  destruct (reachable_inv _ (reach_remove _ _ _ _ Hr H)) as [Hwf' _].
  split; [exact Hnin | split].
  - destruct (remove_total t' v) as [[t'' [w'|e]] H'].
    + apply remove_ok in H' as [_ Hin]; contradiction.
    + rewrite H'; destruct (remove_err _ _ _ _ (proj1 Hwf') H') as [-> ->]; reflexivity.
  - destruct (insert_total t' v) as [[t'' [w'|e]] H'].
    + exists t''; destruct (insert_ok _ _ _ _ H') as [-> _]; exact H'.
    + apply insert_err in H' as [_ [_ Hin]]; contradiction.
Qed.

Lemma remove_then_absent_witness :
  reachable (Node (Some 5) (Some (Node (Some 2) (Some (leaf 1)) None)) (Some (leaf 8))) /\
  remove (Node (Some 5) (Some (Node (Some 2) (Some (leaf 1)) None)) (Some (leaf 8))) 2
    = Some (Node (Some 5) (Some (leaf 1)) (Some (leaf 8)), Ok 2) /\
  (~ In 2 (elements (Node (Some 5) (Some (leaf 1)) (Some (leaf 8)))) /\
   remove (Node (Some 5) (Some (leaf 1)) (Some (leaf 8))) 2
     = Some (Node (Some 5) (Some (leaf 1)) (Some (leaf 8)), Err 2) /\
   exists t'', insert (Node (Some 5) (Some (leaf 1)) (Some (leaf 8))) 2 = Some (t'', Ok 2)).
Proof.
  split; [exact reachable_5281 | split; [reflexivity|]].
  apply (remove_then_absent _ 2 _ 2 reachable_5281); reflexivity.
Defined.

(** X6: a successful [remove] on a tree a client holds removes at least one
    occupied node (it can remove more, see C1). *)
Theorem remove_size_decreases t v t' w :
  reachable t -> remove t v = Some (t', Ok w) -> (size t' < size t)%nat.
Proof.
  intros Hr H.
  destruct (reachable_inv _ Hr) as [Hwf Ho].
  destruct (reachable_inv _ (reach_remove _ _ _ _ Hr H)) as [Hwf' Ho'].
  pose proof (remove_absent _ _ _ _ Hwf Ho H) as Hnin.
  pose proof (remove_incl _ _ _ _ H) as Hi.
  destruct (remove_ok _ _ _ _ H) as [_ Hin].
  assert (Hnd : NoDup (v :: elements t'))
    by (constructor; [exact Hnin | apply StronglySorted_NoDup, ordered_sorted; assumption]).
  assert (Hi' : incl (v :: elements t') (elements t))
    by (intros y [<- | Hy]; [exact Hin | apply Hi, Hy]).
  pose proof (NoDup_incl_length Hnd Hi') as Hl; unfold size; simpl in Hl; lia.
Qed.

Lemma remove_size_decreases_witness :
  reachable (Node (Some 5) (Some (Node (Some 2) (Some (leaf 1)) None)) (Some (leaf 8))) /\
  remove (Node (Some 5) (Some (Node (Some 2) (Some (leaf 1)) None)) (Some (leaf 8))) 8
    = Some (Node (Some 5) (Some (Node (Some 2) (Some (leaf 1)) None)) None, Ok 8) /\
  lt (size (Node (Some 5) (Some (Node (Some 2) (Some (leaf 1)) None)) None))
     (size (Node (Some 5) (Some (Node (Some 2) (Some (leaf 1)) None)) (Some (leaf 8)))).
Proof.
  split; [exact reachable_5281 | split; [reflexivity|]].
  apply (remove_size_decreases _ 8 _ 8 reachable_5281); reflexivity.
Defined.

Lemma elements_prune_node sv l r :
  match l with Some c => tval c <> None | None => True end ->
  elements (prune (Node sv l r)) =
  oelements l ++ match sv with None => [] | Some x => [x] end ++
  match r with Some c => if is_none (tval c) then [] else elements c | None => [] end.
Proof.
  destruct l as [[[lv|] ll lr]|], r as [[[rv|] rl rr]|]; intros Hl;
    try (exfalso; apply Hl; reflexivity); unfold prune; reflexivity.
Qed.

Lemma collapse_suffix t t' w :
  valued_children t -> tval t <> None -> collapse_rightmost t = (t', w) ->
  exists m s, w = Some m /\ elements t = elements t' ++ s ++ [m].
Proof.
  revert t' w.
  induction t as [[x|] l r IHl IHr] using tree_ind; intros t' w Hvc Hv H;
    [|contradiction].
  destruct (valued_children_split _ _ _ Hvc) as [Hvl _].
  assert (Hl : match l with Some c => tval c <> None | None => True end)
    by (destruct l; [exact (proj1 (proj1 Hvc)) | exact I]).
  destruct r as [c|]; cbn [collapse_rightmost] in H.
  - destruct (collapse_rightmost c) as [c' w'] eqn:Hc; cbv beta iota in H.
    injection H as <- <-.
    destruct Hvc as [_ [Hcv Hcc]].
    simpl in IHr; destruct (IHr _ _ Hcc Hcv Hc) as [m [s [-> Hs]]].
    exists m, (if is_none (tval c') then elements c' ++ s else s); split; [reflexivity|].
    rewrite elements_prune_node by exact Hl; rewrite elements_Node; simpl; rewrite Hs.
    destruct (tval c'); simpl; rewrite <- !app_assoc; reflexivity.
  - injection H as <- <-.
    exists x, []; split; [reflexivity|].
    rewrite elements_prune_node by exact Hl; rewrite elements_Node; simpl.
    rewrite !app_nil_r; reflexivity.
Qed.

Lemma StronglySorted_last_max a m :
  StronglySorted Z.lt (a ++ [m]) -> Forall (fun y => y <= m) (a ++ [m]).
Proof.
  induction a as [|y a IH]; intros H; simpl in *.
  - repeat constructor; lia.
  - apply StronglySorted_inv in H as [H Hy].
    constructor; [|exact (IH H)].
    rewrite Forall_forall in Hy.
    assert (Hm : In m (a ++ [m])) by (apply in_or_app; right; left; reflexivity).
    specialize (Hy m Hm); lia.
Qed.

(** X7: on an ordered tree whose present children all hold a value,
    [collapse_rightmost] of a node holding a value returns the greatest value
    of the tree. *)
Theorem collapse_rightmost_max t t' w :
  valued_children t -> tval t <> None -> ordered t ->
  collapse_rightmost t = (t', w) ->
  exists m, w = Some m /\ In m (elements t) /\ Forall (fun y => y <= m) (elements t).
Proof.
  intros Hvc Hv Ho H.
  destruct (collapse_suffix _ _ _ Hvc Hv H) as [m [s [-> Hs]]].
  assert (Hsort : StronglySorted Z.lt (elements t))
    by (apply ordered_sorted; [split; [exact Hvc | intro; contradiction] | exact Ho]).
  exists m; split; [reflexivity|]; rewrite Hs in Hsort |- *; rewrite app_assoc in Hsort |- *.
  split; [apply in_or_app; right; left; reflexivity|].
  apply StronglySorted_last_max, Hsort.
Qed.

Lemma collapse_rightmost_max_witness :
  valued_children (Node (Some 2) (Some (leaf 1)) (Some (leaf 4))) /\
  tval (Node (Some 2) (Some (leaf 1)) (Some (leaf 4))) <> None /\
  ordered (Node (Some 2) (Some (leaf 1)) (Some (leaf 4))) /\
  collapse_rightmost (Node (Some 2) (Some (leaf 1)) (Some (leaf 4)))
    = (Node (Some 2) (Some (leaf 1)) None, Some 4) /\
  exists m, Some 4 = Some m /\ In m (elements (Node (Some 2) (Some (leaf 1)) (Some (leaf 4)))) /\
    Forall (fun y => y <= m) (elements (Node (Some 2) (Some (leaf 1)) (Some (leaf 4)))).
Proof.
  assert (Hvc : valued_children (Node (Some 2) (Some (leaf 1)) (Some (leaf 4))))
    by (simpl; intuition discriminate).
  assert (Hv : tval (Node (Some 2) (Some (leaf 1)) (Some (leaf 4))) <> None) by discriminate.
  assert (Ho : ordered (Node (Some 2) (Some (leaf 1)) (Some (leaf 4))))
    by (simpl; repeat constructor; lia).
  split; [exact Hvc | split; [exact Hv | split; [exact Ho | split; [reflexivity|]]]].
  apply (collapse_rightmost_max _ (Node (Some 2) (Some (leaf 1)) None) _ Hvc Hv Ho).
  reflexivity.
Defined.

(** X8: on a tree whose present children all hold a value, [collapse_rightmost]
    of a node holding a value removes a non-empty final segment of the in-order
    sequence that ends with the returned value: the remaining values are its
    prefix.  The segment is more than the returned value when the rightmost
    node has a left subtree (the defect of C1). *)
Theorem collapse_rightmost_suffix t t' w :
  valued_children t -> tval t <> None -> collapse_rightmost t = (t', w) ->
  exists m s, w = Some m /\ elements t = elements t' ++ s ++ [m].
Proof. apply collapse_suffix. Qed.

Lemma collapse_rightmost_suffix_witness :
  valued_children (Node (Some 2) (Some (leaf 1)) None) /\
  tval (Node (Some 2) (Some (leaf 1)) None) <> None /\
  collapse_rightmost (Node (Some 2) (Some (leaf 1)) None)
    = (Node None (Some (leaf 1)) None, Some 2) /\
  exists m s, Some 2 = Some m /\
    elements (Node (Some 2) (Some (leaf 1)) None)
    = elements (Node None (Some (leaf 1)) None) ++ s ++ [m].
Proof.
  assert (Hvc : valued_children (Node (Some 2) (Some (leaf 1)) None))
    by (simpl; intuition discriminate).
  assert (Hv : tval (Node (Some 2) (Some (leaf 1)) None) <> None) by discriminate.
  split; [exact Hvc | split; [exact Hv | split; [reflexivity|]]].
  apply (collapse_rightmost_suffix _ _ _ Hvc Hv); reflexivity.
Defined.

(** X9: [prune] is idempotent. *)
Theorem prune_idempotent t : prune (prune t) = prune t.
Proof.
  destruct t as [sv l r].
  destruct l as [[[lv|] ll lr]|], r as [[[rv|] rl rr]|]; unfold prune; reflexivity.
Qed.

Lemma insert_all_members t0 xs :
  reachable t0 ->
  exists t rs, insert_all t0 xs = Some (t, rs) /\ reachable t /\
    (forall y, In y (elements t) <-> In y (elements t0) \/ In y xs) /\
    length (elements t) = (length (elements t0) + length (filter is_ok rs))%nat.
Proof.
  revert t0; induction xs as [|x xs IH]; intros t0 Hr; simpl.
  - exists t0, []; split; [reflexivity|]; split; [exact Hr|]; split; [|simpl; lia].
    intros y; tauto.
  - destruct (insert_total t0 x) as [[t1 r1] H1]; rewrite H1; simpl.
    destruct (IH t1 (reach_insert _ _ _ _ Hr H1)) as [t [rs [H2 [Hr2 [Hm Hl]]]]].
    rewrite H2; simpl.
    exists t, (r1 :: rs); split; [reflexivity|]; split; [exact Hr2|].
    destruct r1 as [w|e].
    + destruct (insert_ok _ _ _ _ H1) as [-> [a [b [Ha Hb]]]].
      rewrite Hb, Ha in *; simpl.
      split.
      * intros y; rewrite Hm, !in_app_iff; simpl; tauto.
      * rewrite Hl, !length_app; simpl; lia.
    + destruct (insert_err _ _ _ _ H1) as [-> [-> Hin]].
      split; [|exact Hl].
      intros y; rewrite Hm; split; [tauto|].
      intros [Hy|[<-|Hy]]; auto.
Qed.

(** X10: inserting any sequence of values (duplicates allowed) into a new tree
    never panics, and the tree built holds exactly the distinct values of the
    sequence, in strictly increasing in-order; its size is the number of
    insertions that answered [Ok]. *)
Theorem insert_all_set xs :
  exists t rs, insert_all new xs = Some (t, rs) /\
    StronglySorted Z.lt (elements t) /\
    (forall y, In y (elements t) <-> In y xs) /\
    size t = length (filter is_ok rs).
Proof.
  destruct (insert_all_members new xs reach_new) as [t [rs [H [Hr [Hm Hl]]]]].
  exists t, rs; split; [exact H|].
  destruct (reachable_inv _ Hr) as [Hw Ho].
  split; [exact (ordered_sorted _ Hw Ho)|].
  split; [|unfold size; rewrite Hl; reflexivity].
  intros y; rewrite Hm; simpl; tauto.
Qed.

(** X11: popping a stack just pushed returns the pushed value and the stack as
    it was before the push. *)
Theorem stack_pop_push {A} (s : Stack.stack A) v :
  Stack.pop (Stack.push s v) = (s, Some v).
Proof. destruct s as [tp]; reflexivity. Qed.

(** X12: the stack iterator is fused: once [next] answers [None], every later
    call answers [None] too. *)
Theorem stack_next_fused {A} (s : Stack.stack A) n :
  snd (Stack.next s) = None ->
  Stack.pops Stack.next n (fst (Stack.next s)) = repeat None n.
Proof.
  destruct s as [[[v nx]|]]; simpl; [discriminate|]; intros _.
  induction n as [|n IH]; simpl; [reflexivity|]; rewrite IH; reflexivity.
Qed.

Lemma stack_next_fused_witness :
  snd (Stack.next (@Stack.new Z)) = None /\
  Stack.pops Stack.next 3 (fst (Stack.next (@Stack.new Z))) = [None; None; None].
Proof.
  split; [reflexivity|].
  apply (stack_next_fused (@Stack.new Z) 3); reflexivity.
Defined.
